(** * A shallow embedding of the turn-taking core of the interview bot (app.py)

    Text is modelled as [list ascii] (the program only handles ASCII in the
    places that matter here: punctuation, whitespace and case folding).
    External services (Gemini, Deepgram TTS, pygame playback) are parameters
    of the development; the module-level globals of app.py
    ([conversation_memory], [asked_questions], [mute_microphone]) and the
    [nonlocal] variables of [main] ([is_finals], [has_introduced]) live in an
    explicit state record threaded through a small state-and-exception monad. *)

From Stdlib Require Import List Ascii String Arith Lia Bool.
Import ListNotations.

Definition text := list ascii.

Definition str (s : string) : text := list_ascii_of_string s.

(** ** Character classes *)

(** Python's [str.isspace] / regex [\s] restricted to ASCII:
    space, \t \n \v \f \r and the separators \x1c..\x1f. *)
Definition is_space (c : ascii) : bool :=
  let n := nat_of_ascii c in
  (n =? 32) || ((9 <=? n) && (n <=? 13)) || ((28 <=? n) && (n <=? 31)).

(** The regex class [.!?]. *)
Definition is_sentence_end (c : ascii) : bool :=
  match c with
  | "."%char | "!"%char | "?"%char => true
  | _ => false
  end.

(** [str.lower] on ASCII. *)
Definition lower_char (c : ascii) : ascii :=
  let n := nat_of_ascii c in
  if (65 <=? n) && (n <=? 90) then ascii_of_nat (n + 32) else c.

Definition lower (s : text) : text := map lower_char s.

(** ** [str.strip] *)

Fixpoint lstrip (s : text) : text :=
  match s with
  | [] => []
  | c :: t => if is_space c then lstrip t else s
  end.

Definition rstrip (s : text) : text := rev (lstrip (rev s)).

Definition strip (s : text) : text := rstrip (lstrip s).

(** ** Equality and substring test ([x in y] on strings) *)

Fixpoint text_eqb (a b : text) : bool :=
  match a, b with
  | [], [] => true
  | x :: a', y :: b' => Ascii.eqb x y && text_eqb a' b'
  | _, _ => false
  end.

Fixpoint is_prefix (p s : text) : bool :=
  match p, s with
  | [], _ => true
  | x :: p', y :: s' => Ascii.eqb x y && is_prefix p' s'
  | _ :: _, [] => false
  end.

Fixpoint contains (s p : text) : bool :=
  match s with
  | [] => is_prefix p []
  | _ :: t => is_prefix p s || contains t p
  end.

(** [", ".join]-style join, used for the (printed only) utterance. *)
Fixpoint join (sep : text) (xs : list text) : text :=
  match xs with
  | [] => []
  | [x] => x
  | x :: xs' => x ++ sep ++ join sep xs'
  end.

(** ** [extract_questions]: [re.findall(r'([^.!?]+\?)', text)], each stripped *)

(** The greedy run of [[^.!?]+] at the head of the input: the longest prefix
    free of sentence punctuation.  Backtracking to a shorter run never helps,
    since the character after a shorter run is again in [[^.!?]], not [?]. *)
Fixpoint span_plain (s : text) : text * text :=
  match s with
  | [] => ([], [])
  | c :: t =>
      if is_sentence_end c then ([], s)
      else let (r, rest) := span_plain t in (c :: r, rest)
  end.

(** One attempt of [([^.!?]+\?)] anchored at the head of [s]. *)
Definition match_question (s : text) : option (text * text) :=
  match span_plain s with
  | ([], _) => None
  | (run, "?"%char :: rest) => Some (run ++ ["?"%char], rest)
  | _ => None
  end.

(** [re.findall]: try at the current position; on success continue after
    the match, otherwise advance one character.  [fuel] bounds the scan. *)
Fixpoint findall_question (fuel : nat) (s : text) : list text :=
  match fuel with
  | 0 => []
  | S f =>
      match match_question s with
      | Some (m, rest) => m :: findall_question f rest
      | None =>
          match s with
          | [] => []
          | _ :: t => findall_question f t
          end
      end
  end.

Definition extract_questions (s : text) : list text :=
  map strip (findall_question (S (List.length s)) s).

(** [any(q.lower() in (eq.lower() for eq in existing) for q in new_questions)] *)
Definition is_duplicate_question (new_text : text) (existing : list text) : bool :=
  existsb (fun q => existsb (fun eq => text_eqb (lower q) (lower eq)) existing)
          (extract_questions new_text).

(** ** [segment_text_by_sentence] *)

(** Start indices of the matches of [re.finditer(r'(?<=[.!?])\s+', text)].
    [prev] is the character before the scan position (for the lookbehind);
    [inrun] records that the greedy [\s+] of the last match is still
    consuming whitespace. *)
Fixpoint sentence_boundaries (prev : option ascii) (inrun : bool) (i : nat)
         (s : text) : list nat :=
  match s with
  | [] => []
  | c :: t =>
      if inrun && is_space c then sentence_boundaries (Some c) true (S i) t
      else if match prev with Some p => is_sentence_end p | None => false end
              && is_space c
      then i :: sentence_boundaries (Some c) true (S i) t
      else sentence_boundaries (Some c) false (S i) t
  end.

(** Python slice [s[a:b]] for [a <= b]. *)
Definition slice (s : text) (a b : nat) : text := firstn (b - a) (skipn a s).

Fixpoint segments_from (s : text) (start : nat) (bs : list nat) : list text :=
  match bs with
  | [] => [strip (skipn start s)]
  | b :: bs' => strip (slice s start (b + 1)) :: segments_from s (b + 1) bs'
  end.

Definition segment_text_by_sentence (s : text) : list text :=
  segments_from s 0 (sentence_boundaries None false 0 s).

(** Whether some sentence punctuation [.!?] is directly followed by
    whitespace, i.e. whether the lookbehind pattern has a match. *)
Fixpoint has_boundary (s : text) : bool :=
  match s with
  | a :: ((b :: _) as t) => (is_sentence_end a && is_space b) || has_boundary t
  | _ => false
  end.

Example extract_questions_ex :
  extract_questions (str "Hi there. What is A?  How is B? ok!? C") =
  [str "What is A?"; str "How is B?"].
Proof. reflexivity. Qed.

Example segment_ex :
  segment_text_by_sentence (str "Hi.  How are you? Fine. ") =
  [str "Hi."; str "How are you?"; str "Fine."; []].
Proof. reflexivity. Qed.

(** ** Session state *)

Inductive role := User | Assistant.

Definition turn := (role * text)%type.

Definition newline : ascii := ascii_of_nat 10.

(** A temporary file: its name (a fresh counter) and its contents. *)
Definition file := (nat * list Byte.byte)%type.

Record St := mkSt {
  memory : list turn;          (* conversation_memory *)
  asked : list text;           (* asked_questions, a set: no duplicates *)
  mute : bool;                 (* mute_microphone.is_set() *)
  is_finals : list text;       (* nonlocal is_finals *)
  has_introduced : bool;       (* nonlocal has_introduced *)
  gen_calls : nat;             (* number of Gemini requests made so far *)
  files : list file;           (* temporary files present on disk *)
  next_file : nat;             (* name of the next fresh temporary file *)
  tts_log : list text;         (* segments sent to the TTS service *)
  played : list (list Byte.byte) (* audio played to the speaker *)
}.

Definition init_state : St :=
  mkSt [] [] false [] false 0 [] 0 [] [].

Definition set_memory v s := mkSt v (asked s) (mute s) (is_finals s)
  (has_introduced s) (gen_calls s) (files s) (next_file s) (tts_log s) (played s).
Definition set_asked v s := mkSt (memory s) v (mute s) (is_finals s)
  (has_introduced s) (gen_calls s) (files s) (next_file s) (tts_log s) (played s).
Definition set_mute v s := mkSt (memory s) (asked s) v (is_finals s)
  (has_introduced s) (gen_calls s) (files s) (next_file s) (tts_log s) (played s).
Definition set_is_finals v s := mkSt (memory s) (asked s) (mute s) v
  (has_introduced s) (gen_calls s) (files s) (next_file s) (tts_log s) (played s).
Definition set_has_introduced v s := mkSt (memory s) (asked s) (mute s)
  (is_finals s) v (gen_calls s) (files s) (next_file s) (tts_log s) (played s).
Definition set_gen_calls v s := mkSt (memory s) (asked s) (mute s)
  (is_finals s) (has_introduced s) v (files s) (next_file s) (tts_log s) (played s).
Definition set_files v s := mkSt (memory s) (asked s) (mute s) (is_finals s)
  (has_introduced s) (gen_calls s) v (next_file s) (tts_log s) (played s).
Definition set_next_file v s := mkSt (memory s) (asked s) (mute s) (is_finals s)
  (has_introduced s) (gen_calls s) (files s) v (tts_log s) (played s).
Definition set_tts_log v s := mkSt (memory s) (asked s) (mute s) (is_finals s)
  (has_introduced s) (gen_calls s) (files s) (next_file s) v (played s).
Definition set_played v s := mkSt (memory s) (asked s) (mute s) (is_finals s)
  (has_introduced s) (gen_calls s) (files s) (next_file s) (tts_log s) v.

(** ** A state-and-exception monad *)

Inductive exn := GenerationError | SynthesisError | PlaybackError.

Definition M (A : Type) := St -> St * (A + exn).

Definition ret {A} (a : A) : M A := fun s => (s, inl a).

Definition bind {A B} (m : M A) (k : A -> M B) : M B :=
  fun s => let (s', r) := m s in
           match r with
           | inl a => k a s'
           | inr e => (s', inr e)
           end.

Definition raise {A} (e : exn) : M A := fun s => (s, inr e).

Definition get : M St := fun s => (s, inl s).

Definition modify (f : St -> St) : M unit := fun s => (f s, inl tt).

Notation "x <- m ;; k" := (bind m (fun x => k))
  (at level 61, m at next level, right associativity).
Notation "m ;; k" := (bind m (fun _ => k))
  (at level 61, right associativity).

(** ** Sets of questions ([set.update]) and files *)

Definition set_add_text (x : text) (l : list text) : list text :=
  if existsb (text_eqb x) l then l else l ++ [x].

Definition set_update (l : list text) (xs : list text) : list text :=
  fold_left (fun acc x => set_add_text x acc) xs l.

Definition write_file (f : nat) (data : list Byte.byte) (fs : list file) : list file :=
  map (fun '(n, d) => if n =? f then (n, d ++ data) else (n, d)) fs.

Definition read_file (f : nat) (fs : list file) : list Byte.byte :=
  match find (fun '(n, _) => n =? f) fs with
  | Some (_, d) => d
  | None => []
  end.

Definition remove_file (f : nat) (fs : list file) : list file :=
  filter (fun '(n, _) => negb (n =? f)) fs.

(** [conversation_memory[-6:]] *)
Definition lastn {A} (n : nat) (l : list A) : list A :=
  skipn (List.length l - n) l.

Definition intro_line : text :=
  str "Hello, this is Charles from XYZ Company. How are you today? " ++
  str "I'll be conducting your initial screening interview. Let's begin." ++
  [newline].

Definition closing_line : text :=
  newline :: str "Thank you for your time. We'll review your responses and get back to you soon.".

(** Transcript events delivered by Deepgram. *)
Record event := mkEvent {
  transcript : text;
  is_final : bool;
  speech_final : bool
}.

Section Program.

(** The Gemini model: given the index of the request, the asked questions
    interpolated into the prompt and the last six turns, it either answers
    or the call raises. *)
Variable gen : nat -> list text -> list turn -> option text.
(** The Deepgram TTS endpoint: audio bytes for a segment, or the request
    raises. *)
Variable synth : text -> option (list Byte.byte).
(** Whether pygame can play a given audio file (init/load/play succeed). *)
Variable play_ok : list Byte.byte -> bool.

Definition get_ai_response : M text :=
  s <- get;;
  let window := lastn 6 (memory s) in
  modify (set_gen_calls (S (gen_calls s)));;
  match gen (gen_calls s) (asked s) window with
  | Some t => ret (strip t)     (* response.text.strip() *)
  | None => raise GenerationError
  end.

(** Lines 158-161: prepend the introduction once. *)
Definition introduce (ai_response : text) : M text :=
  s <- get;;
  if has_introduced s then ret ai_response
  else modify (set_has_introduced true);; ret (intro_line ++ ai_response).

(** Lines 164-167: [while is_duplicate_question(ai_response, asked_questions)
    and retry_count < 3].  [fuel] is never exhausted before the test fails:
    it is started at 3 with [retry_count = 0]. *)
Fixpoint dup_loop (fuel : nat) (ai_response : text) (retry_count : nat) : M text :=
  match fuel with
  | 0 => ret ai_response
  | S f =>
      s <- get;;
      if is_duplicate_question ai_response (asked s) && (retry_count <? 3)
      then r <- get_ai_response;; dup_loop f r (S retry_count)
      else ret ai_response
  end.

(** Lines 170-171. *)
Definition record (ai_response : text) : M unit :=
  modify (fun s => set_asked (set_update (asked s) (extract_questions ai_response)) s).

(** Lines 174-175. *)
Definition ensure_closing (ai_response : text) : M text :=
  s <- get;;
  if (5 <=? List.length (asked s)) && negb (contains (lower ai_response) (str "closing"))
  then ret (ai_response ++ closing_line)
  else ret ai_response.

Definition synthesize_audio (segment : text) : M (list Byte.byte) :=
  modify (fun s => set_tts_log (tts_log s ++ [segment]) s);;
  match synth segment with
  | Some b => ret b
  | None => raise SynthesisError
  end.

(** [tempfile.NamedTemporaryFile(delete=False)]: a fresh, empty file. *)
Definition new_tempfile : M nat :=
  s <- get;;
  let f := next_file s in
  modify (fun s => set_next_file (S f) (set_files (files s ++ [(f, [])]) s));;
  ret f.

Fixpoint write_segments (f : nat) (segs : list text) : M unit :=
  match segs with
  | [] => ret tt
  | seg :: rest =>
      audio_data <- synthesize_audio seg;;
      modify (fun s => set_files (write_file f audio_data (files s)) s);;
      write_segments f rest
  end.

Definition play_audio (f : nat) : M unit :=
  s <- get;;
  let data := read_file f (files s) in
  if play_ok data
  then modify (fun s => set_played (played s ++ [data]) s);;
       modify (set_mute false)
  else raise PlaybackError.

Definition process_and_play_audio (t : text) : M unit :=
  let text_segments := segment_text_by_sentence t in
  tf <- new_tempfile;;
  write_segments tf text_segments;;
  modify (set_mute true);;
  play_audio tf;;
  modify (fun s => set_files (remove_file tf (files s)) s);;
  modify (set_mute false).

Definition on_message (result : event) : M unit :=
  s <- get;;
  if mute s then ret tt else
  let sentence := transcript result in
  if List.length sentence =? 0 then ret tt else
  if is_final result then
    modify (fun s => set_is_finals (is_finals s ++ [sentence]) s);;
    if speech_final result then
      (* utterance = " ".join(is_finals) is only printed *)
      modify (set_is_finals []);;
      modify (fun s => set_memory (memory s ++ [(User, strip sentence)]) s);;
      ai_response <- get_ai_response;;
      ai_response <- introduce ai_response;;
      ai_response <- dup_loop 3 ai_response 0;;
      record ai_response;;
      ai_response <- ensure_closing ai_response;;
      modify (fun s => set_memory (memory s ++ [(Assistant, ai_response)]) s);;
      process_and_play_audio ai_response
    else ret tt
  else ret tt.   (* interim results are only printed *)

(** The Deepgram SDK invokes [on_message] once per event; an exception
    ends the callback, the session goes on with the state as left. *)
Definition handle (s : St) (ev : event) : St := fst (on_message ev s).

Definition run (s : St) (evs : list event) : St := fold_left handle evs s.

End Program.

(** ** Sentence boundaries of a text [T] *)

Section BoundaryDefs.

Variable T : text.


(** A boundary index [b]: whitespace at [b], sentence punctuation at [b-1]. *)
Definition good_boundary (b : nat) : Prop :=
  1 <= b /\
  (exists c, nth_error T b = Some c /\ is_space c = true) /\
  (exists p, nth_error T (b - 1) = Some p /\ is_sentence_end p = true).

Fixpoint chain (start : nat) (bs : list nat) : Prop :=
  match bs with
  | [] => True
  | b :: bs' => start < b /\ good_boundary b /\ chain (b + 1) bs'
  end.

(** The pieces [text[start:b+1]] and [text[start:]] that get stripped. *)
Fixpoint pieces_from (start : nat) (bs : list nat) : list text :=
  match bs with
  | [] => [skipn start T]
  | b :: bs' => slice T start (b + 1) :: pieces_from (b + 1) bs'
  end.

End BoundaryDefs.

(** The files after a series of [tf.write] calls on file [f]. *)
Definition write_all (f : nat) (ds : list (list Byte.byte)) (fs : list file) : list file :=
  fold_left (fun fs d => write_file f d fs) ds fs.

(** The state in which a speech-final event starts its reply: the fragment
    buffer emptied and the user turn appended (lines 147-152). *)
Definition user_turn_state (ev : event) (s : St) : St :=
  set_memory (memory s ++ [(User, strip (transcript ev))])
             (set_is_finals [] (set_is_finals (is_finals s ++ [transcript ev]) s)).

(** The closing step (line 174) as a value. *)
Definition closing_of (asked_now : list text) (r : text) : text :=
  if (5 <=? List.length asked_now) && negb (contains (lower r) (str "closing"))
  then r ++ closing_line else r.

(** A text that does not start with whitespace. *)
Definition no_lead (s : text) : Prop :=
  match s with
  | [] => True
  | c :: _ => is_space c = false
  end.

(** ** Sample environments used for concrete runs *)

Definition gen_sample (n : nat) (_ : list text) (_ : list turn) : option text :=
  match n with
  | 0 => Some (str "What is A? What is B? What is C? What is D?")
  | _ => Some (str "Tell me more.")
  end.

Definition synth_sample (_ : text) : option (list Byte.byte) := Some [Byte.x00].

Definition synth_down (_ : text) : option (list Byte.byte) := None.

Definition play_all (_ : list Byte.byte) : bool := true.

Definition play_none (_ : list Byte.byte) : bool := false.

Definition speech_final_event (t : string) : event := mkEvent (str t) true true.

(** A model that keeps asking the same question. *)
Definition gen_repeat (_ : nat) (_ : list text) (_ : list turn) : option text :=
  Some (str "What is A?").

(** A model whose every request raises. *)
Definition gen_down (_ : nat) (_ : list text) (_ : list turn) : option text := None.

(** The first turn of a session on the utterance "Hi". *)
Definition sample_turn (play_ok : list Byte.byte -> bool) : St * (unit + exn) :=
  on_message gen_sample synth_sample play_ok (speech_final_event "Hi") init_state.

(** A state where "What is A?" has already been asked. *)
Definition asked_A : St := set_asked [str "What is A?"] init_state.

(** * Properties *)

(** ** Stripping *)

Lemma lstrip_split (s : text) :
  exists l, s = l ++ lstrip s /\ forallb is_space l = true.
Proof.
  induction s as [|c t IH]; simpl.
  - exists []; auto.
  - destruct (is_space c) eqn:Hc.
    + destruct IH as [l [Hl Hs]]. exists (c :: l). simpl. rewrite Hc, <- Hl. auto.
    + exists []; auto.
Qed.

Lemma rstrip_split (s : text) :
  exists r, s = rstrip s ++ r /\ forallb is_space r = true.
Proof.
  destruct (lstrip_split (rev s)) as [l [Hl Hs]].
  exists (rev l). unfold rstrip. split.
  - rewrite <- rev_app_distr, <- Hl, rev_involutive. reflexivity.
  - rewrite forallb_forall in *. intros x Hx. apply Hs, in_rev. exact Hx.
Qed.

Lemma strip_split (s : text) :
  exists l r, s = l ++ strip s ++ r /\
              forallb is_space l = true /\ forallb is_space r = true.
Proof.
  destruct (lstrip_split s) as [l [Hl Hls]].
  destruct (rstrip_split (lstrip s)) as [r [Hr Hrs]].
  exists l, r. unfold strip. rewrite <- Hr. auto.
Qed.

Lemma strip_nil_all_space (s : text) :
  strip s = [] -> forallb is_space s = true.
Proof.
  intros H. destruct (strip_split s) as [l [r [Hs [Hl Hr]]]].
  rewrite H in Hs. simpl in Hs. subst s. rewrite forallb_app, Hl, Hr. reflexivity.
Qed.

Lemma sentence_end_not_space (c : ascii) :
  is_sentence_end c = true -> is_space c = false.
Proof.
  destruct c as [[] [] [] [] [] [] [] []]; vm_compute; congruence.
Qed.

(** ** Sentence boundaries *)

Section Boundaries.

Variable T : text.
Local Abbreviation good_boundary := (good_boundary T).
Local Abbreviation chain := (chain T).
Local Abbreviation pieces_from := (pieces_from T).


Lemma skipn_cons_nth (i : nat) (c : ascii) (t : text) :
  skipn i T = c :: t -> nth_error T i = Some c /\ skipn (S i) T = t.
Proof.
  revert i. generalize T as U. clear T.
  induction U as [|x U IH]; intros i H.
  - destruct i; discriminate.
  - destruct i as [|i]; simpl in *.
    + inversion H; subst. auto.
    + apply IH. exact H.
Qed.

Lemma sentence_boundaries_chain :
  forall s prev inrun i start,
    s = skipn i T ->
    match prev with
    | None => True
    | Some p => 1 <= i /\ nth_error T (i - 1) = Some p
    end ->
    (start < i \/
     (start = i /\ match prev with Some p => is_sentence_end p = false | None => True end)) ->
    chain start (sentence_boundaries prev inrun i s).
Proof.
  induction s as [|c t IH]; intros prev inrun i start Hs Hprev Hstart; simpl; [exact I|].
  destruct (skipn_cons_nth i c t (eq_sym Hs)) as [Hc Ht].
  assert (Hprev' : match Some c with
                   | None => True
                   | Some p => 1 <= S i /\ nth_error T (S i - 1) = Some p
                   end).
  { simpl. rewrite Nat.sub_0_r. split; [lia | exact Hc]. }
  destruct (inrun && is_space c) eqn:Hrun.
  - apply IH; auto. left. destruct Hstart as [H | [H _]]; lia.
  - destruct ((match prev with Some p => is_sentence_end p | None => false end)
              && is_space c) eqn:Hb.
    + apply andb_true_iff in Hb as [Hp Hsp].
      destruct prev as [p|]; [|discriminate].
      destruct Hprev as [Hi Hnth].
      simpl. split; [|split].
      * destruct Hstart as [H | [_ H]]; [exact H | congruence].
      * split; [exact Hi|]. split; eauto.
      * apply IH; auto. right. split; [lia|]. apply Bool.not_true_iff_false.
        intros Hc'. apply sentence_end_not_space in Hc'. congruence.
    + apply IH; auto. left. destruct Hstart as [H | [H _]]; lia.
Qed.


Lemma segments_from_pieces (start : nat) (bs : list nat) :
  segments_from T start bs = map strip (pieces_from start bs).
Proof.
  revert start. induction bs as [|b bs IH]; intros start; simpl; [reflexivity|].
  rewrite IH. reflexivity.
Qed.

Lemma slice_skipn (a b : nat) :
  a <= b -> slice T a b ++ skipn b T = skipn a T.
Proof.
  intros Hab. unfold slice.
  replace (skipn b T) with (skipn (b - a) (skipn a T)).
  - apply firstn_skipn.
  - rewrite skipn_skipn. f_equal. lia.
Qed.

Lemma concat_pieces (start : nat) (bs : list nat) :
  chain start bs -> List.concat (pieces_from start bs) = skipn start T.
Proof.
  revert start. induction bs as [|b bs IH]; intros start Hc; simpl.
  - apply app_nil_r.
  - destruct Hc as [Hlt [_ Hc]]. rewrite IH by exact Hc.
    apply slice_skipn. lia.
Qed.

Lemma nth_error_in_slice (a b j : nat) (x : ascii) :
  nth_error T j = Some x -> a <= j < b -> In x (slice T a b).
Proof.
  intros Hj Hr. unfold slice.
  apply nth_error_In with (n := j - a).
  rewrite nth_error_firstn. destruct (Nat.ltb_spec (j - a) (b - a)); [|lia].
  rewrite nth_error_skipn. replace (a + (j - a)) with j by lia. exact Hj.
Qed.

Lemma segments_shape (start : nat) (bs : list nat) :
  chain start bs ->
  exists init lst,
    segments_from T start bs = init ++ [lst] /\
    Forall (fun g => g <> []) init /\
    (lst = [] ->
     (bs = [] /\ forallb is_space (skipn start T) = true) \/
     (exists b, good_boundary b /\ forallb is_space (skipn (b + 1) T) = true)).
Proof.
  revert start. induction bs as [|b bs IH]; intros start Hc; simpl.
  - exists [], (strip (skipn start T)). split; [reflexivity|]. split; [constructor|].
    intros H. left. split; [reflexivity|]. apply strip_nil_all_space. exact H.
  - destruct Hc as [Hlt [Hgood Hc]].
    destruct (IH (b + 1) Hc) as [init [lst [Heq [Hne Hlst]]]].
    exists (strip (slice T start (b + 1)) :: init), lst.
    rewrite Heq. split; [reflexivity|]. split.
    + constructor; [|exact Hne].
      destruct Hgood as [H1 [_ [p [Hp Hpe]]]].
      intros Hnil. apply strip_nil_all_space in Hnil.
      assert (Hin : In p (slice T start (b + 1))).
      { apply nth_error_in_slice with (j := b - 1); [exact Hp | lia]. }
      rewrite forallb_forall in Hnil. specialize (Hnil p Hin).
      apply sentence_end_not_space in Hpe. congruence.
    + intros Hnil. right. destruct (Hlst Hnil) as [[-> Hsp] | Hex].
      * exists b. auto.
      * exact Hex.
Qed.

End Boundaries.

Lemma skipn_nth_error {A} (l : list A) (n : nat) (x : A) :
  nth_error l n = Some x -> skipn n l = x :: skipn (S n) l.
Proof.
  revert n. induction l as [|y l IH]; intros n H.
  - destruct n; discriminate.
  - destruct n as [|n]; simpl in *.
    + inversion H; reflexivity.
    + apply IH. exact H.
Qed.

Lemma Forall2_strip (ps : list text) :
  Forall2 (fun p g => exists l r, p = l ++ g ++ r /\
             forallb is_space l = true /\ forallb is_space r = true)
          ps (map strip ps).
Proof.
  induction ps as [|p ps IH]; simpl; constructor; [|exact IH].
  apply strip_split.
Qed.



(** Claim C8, as amended.  [segment_text_by_sentence] cuts the text into
    pieces whose concatenation is the text, each segment being its piece
    with leading and trailing whitespace removed; every segment but the last
    is non-empty, and the last is empty only when the text is all whitespace
    (the empty text included) or ends with sentence punctuation followed by
    whitespace. *)
Theorem segment_text_by_sentence_reconstructs (t : text) :
  (exists pieces,
      t = List.concat pieces /\
      Forall2 (fun p g => exists l r, p = l ++ g ++ r /\
                 forallb is_space l = true /\ forallb is_space r = true)
              pieces (segment_text_by_sentence t)) /\
  (exists init lst,
      segment_text_by_sentence t = init ++ [lst] /\
      Forall (fun g => g <> []) init /\
      (lst = [] ->
       forallb is_space t = true \/
       exists pre p w, t = pre ++ p :: w /\ is_sentence_end p = true /\
                       w <> [] /\ forallb is_space w = true)).
Proof.
  set (bs := sentence_boundaries None false 0 t).
  assert (Hc : chain t 0 bs).
  { apply sentence_boundaries_chain; simpl; auto. }
  split.
  - exists (pieces_from t 0 bs). split.
    + rewrite concat_pieces by exact Hc. reflexivity.
    + unfold segment_text_by_sentence. fold bs.
      rewrite segments_from_pieces. apply Forall2_strip.
  - destruct (segments_shape t 0 bs Hc) as [init [lst [Heq [Hne Hlst]]]].
    exists init, lst. split; [exact Heq|]. split; [exact Hne|].
    intros Hnil. destruct (Hlst Hnil) as [[_ Hsp] | [b [[H1 [[c [Hcn Hcs]] [p [Hp Hpe]]]] Hsp]]].
    + left. exact Hsp.
    + right. exists (firstn (b - 1) t), p, (c :: skipn (b + 1) t).
      split; [|split; [exact Hpe|split; [discriminate|]]].
      * rewrite <- (firstn_skipn (b - 1) t) at 1. f_equal.
        rewrite (skipn_nth_error t (b - 1) p Hp).
        replace (S (b - 1)) with b by lia.
        rewrite (skipn_nth_error t b c Hcn). rewrite Nat.add_1_r. reflexivity.
      * simpl. rewrite Hcs. exact Hsp.
Qed.

(** Claim C8, counterexample: the empty text has no sentence boundary, yet
    its only segment is the empty string. *)
Lemma segment_text_by_sentence_empty_input :
  sentence_boundaries None false 0 [] = [] /\
  segment_text_by_sentence [] = [[]].
Proof. split; reflexivity. Qed.

(** ** Stripping is idempotent *)

Lemma no_lead_lstrip (s : text) : no_lead (lstrip s).
Proof.
  induction s as [|c t IH]; simpl; [exact I|].
  destruct (is_space c) eqn:Hc; [exact IH | exact Hc].
Qed.

Lemma lstrip_no_lead (u : text) : no_lead u -> lstrip u = u.
Proof.
  destruct u as [|c t]; simpl; [reflexivity|]. intros H. rewrite H. reflexivity.
Qed.

Lemma no_lead_app_l (x y : text) : no_lead (x ++ y) -> no_lead x.
Proof. destruct x; simpl; auto. Qed.

Lemma strip_idem (s : text) : strip (strip s) = strip s.
Proof.
  unfold strip, rstrip.
  set (u := lstrip s). set (v := lstrip (rev u)).
  assert (Hu : no_lead u) by apply no_lead_lstrip.
  assert (Hv : no_lead v) by apply no_lead_lstrip.
  assert (Hrv : no_lead (rev v)).
  { destruct (lstrip_split (rev u)) as [l [Hl _]]. fold v in Hl.
    apply no_lead_app_l with (y := rev l).
    rewrite <- rev_app_distr, <- Hl, rev_involutive. exact Hu. }
  rewrite (lstrip_no_lead (rev v) Hrv), rev_involutive.
  rewrite (lstrip_no_lead v Hv). reflexivity.
Qed.

Lemma extract_questions_trimmed (s q : text) :
  In q (extract_questions s) -> strip q = q.
Proof.
  unfold extract_questions. intros Hq. apply in_map_iff in Hq as [x [<- _]].
  apply strip_idem.
Qed.

Lemma text_eqb_true_iff (a b : text) : text_eqb a b = true <-> a = b.
Proof.
  revert b. induction a as [|x a IH]; intros [|y b]; simpl;
    try (split; congruence).
  rewrite andb_true_iff, IH, Ascii.eqb_eq. split.
  - intros [-> ->]. reflexivity.
  - intros H. inversion H. auto.
Qed.

(** ** Duplicate detection *)

(** Claim C5, as amended.  [is_duplicate_question text known] holds exactly
    when some question fragment extracted from [text] (already trimmed by
    [extract_questions]) has the same lower-case form as the lower-case form
    of some member of [known]: both sides are case-folded, members of
    [known] are not trimmed. *)
Theorem is_duplicate_question_iff (t : text) (known : list text) :
  is_duplicate_question t known = true <->
  exists q, In q (extract_questions t) /\
            exists k, In k known /\ lower q = lower k.
Proof.
  unfold is_duplicate_question. rewrite existsb_exists. split.
  - intros [q [Hq Hk]]. apply existsb_exists in Hk as [k [Hk Heq]].
    apply text_eqb_true_iff in Heq. eauto.
  - intros [q [Hq [k [Hk Heq]]]]. exists q. split; [exact Hq|].
    apply existsb_exists. exists k. split; [exact Hk|].
    apply text_eqb_true_iff. exact Heq.
Qed.

(** Claim C5, counterexample: with [known = {"What?"}] the text ["What?"] is
    a duplicate, although the normalised fragment ["what?"] is not a member
    of [known]. *)
Lemma is_duplicate_question_case_folds_known :
  is_duplicate_question (str "What?") [str "What?"] = true /\
  ~ (exists q, In q (extract_questions (str "What?")) /\
               In (lower (strip q)) [str "What?"]).
Proof.
  split; [reflexivity|].
  intros [q [Hq Hin]]. vm_compute in Hq. destruct Hq as [<- | []].
  vm_compute in Hin. destruct Hin as [H | []]. discriminate.
Qed.

(** ** The effects of each step of a turn *)

Section ProgramProofs.

Variable gen : nat -> list text -> list turn -> option text.
Variable synth : text -> option (list Byte.byte).
Variable play_ok : list Byte.byte -> bool.


Lemma set_gen_calls_same (s : St) : set_gen_calls (gen_calls s) s = s.
Proof. destruct s; reflexivity. Qed.

Lemma set_gen_calls_twice (a b : nat) (s : St) :
  set_gen_calls a (set_gen_calls b s) = set_gen_calls a s.
Proof. destruct s; reflexivity. Qed.

Lemma get_ai_response_eq (s : St) :
  get_ai_response gen s =
  (set_gen_calls (S (gen_calls s)) s,
   match gen (gen_calls s) (asked s) (lastn 6 (memory s)) with
   | Some t => inl (strip t)
   | None => inr GenerationError
   end).
Proof.
  unfold get_ai_response, bind, get, modify, ret, raise. simpl.
  destruct (gen _ _ _); reflexivity.
Qed.

Lemma introduce_eq (r : text) (s : St) :
  introduce r s =
  if has_introduced s then (s, inl r)
  else (set_has_introduced true s, inl (intro_line ++ r)).
Proof.
  unfold introduce, bind, get, modify, ret. simpl.
  destruct (has_introduced s); reflexivity.
Qed.

Lemma record_eq (r : text) (s : St) :
  record r s = (set_asked (set_update (asked s) (extract_questions r)) s, inl tt).
Proof. reflexivity. Qed.

Lemma ensure_closing_eq (r : text) (s : St) :
  ensure_closing r s =
  (s, inl (if (5 <=? List.length (asked s)) && negb (contains (lower r) (str "closing"))
           then r ++ closing_line else r)).
Proof.
  unfold ensure_closing, bind, get, ret. simpl.
  destruct (_ && _); reflexivity.
Qed.

Lemma new_tempfile_eq (s : St) :
  new_tempfile s =
  (set_next_file (S (next_file s)) (set_files (files s ++ [(next_file s, [])]) s),
   inl (next_file s)).
Proof. reflexivity. Qed.

Lemma play_audio_eq (f : nat) (s : St) :
  play_audio play_ok f s =
  if play_ok (read_file f (files s))
  then (set_mute false (set_played (played s ++ [read_file f (files s)]) s), inl tt)
  else (s, inr PlaybackError).
Proof.
  unfold play_audio, bind, get, modify, ret, raise. simpl.
  destruct (play_ok _); reflexivity.
Qed.

(** The duplicate-avoidance loop only issues new Gemini requests: at most
    [n] of them, and the reply it returns is either its input (no request)
    or the answer to its last request. *)
Lemma dup_loop_spec (n k : nat) (r : text) (s s' : St) (res : text + exn) :
  n + k = 3 ->
  dup_loop gen n r k s = (s', res) ->
  s' = set_gen_calls (gen_calls s') s /\
  gen_calls s <= gen_calls s' <= gen_calls s + n /\
  (forall e, res = inr e -> e = GenerationError) /\
  (forall r', res = inl r' ->
     (is_duplicate_question r' (asked s) = true -> gen_calls s' = gen_calls s + n) /\
     ((r' = r /\ gen_calls s' = gen_calls s) \/
      (gen_calls s < gen_calls s' /\
       exists out, gen (pred (gen_calls s')) (asked s) (lastn 6 (memory s)) = Some out /\
                   r' = strip out))).
Proof.
  revert k r s s' res.
  induction n as [|n IH]; intros k r s s' res Hnk Hrun.
  - simpl in Hrun. inversion Hrun; subst.
    rewrite set_gen_calls_same. split; [reflexivity|]. split; [lia|]. split.
    + intros e He. discriminate.
    + intros r1 Hr1. inversion Hr1; subst. split; [lia|]. left. auto.
  - simpl in Hrun. unfold bind, get, ret in Hrun.
    destruct (is_duplicate_question r (asked s) && (k <? 3)) eqn:Hc.
    + rewrite get_ai_response_eq in Hrun.
      destruct (gen (gen_calls s) (asked s) (lastn 6 (memory s))) as [t|] eqn:Hg.
      * apply IH in Hrun as [Hs' [Hb [He Hr]]]; [|lia].
        simpl in Hb, Hr.
        split; [rewrite Hs' at 1; destruct s; reflexivity|]. split; [lia|]. split; [exact He|].
        intros r' Hr'. destruct (Hr r' Hr') as [Hd Hcases]. split.
        { intros Hdup. rewrite (Hd Hdup). lia. }
        right. split; [lia|].
        destruct Hcases as [[-> Heq] | [Hlt Hex]].
        -- exists t. rewrite Heq. simpl. auto.
        -- exact Hex.
      * inversion Hrun; subst. simpl.
        split; [destruct s; reflexivity|]. split; [lia|]. split.
        -- intros e He. inversion He. reflexivity.
        -- intros r' Hr'. discriminate.
    + inversion Hrun; subst. rewrite set_gen_calls_same.
      split; [reflexivity|]. split; [lia|]. split.
      * intros e He. discriminate.
      * intros r' Hr'. inversion Hr'; subst. split.
        -- intros Hdup. rewrite Hdup in Hc. simpl in Hc.
           apply Nat.ltb_ge in Hc. lia.
        -- left. auto.
Qed.


Lemma write_segments_spec (f : nat) (segs : list text) (s s' : St) (r : unit + exn) :
  write_segments synth f segs s = (s', r) ->
  exists k ds,
    s' = set_files (write_all f ds (files s))
                   (set_tts_log (tts_log s ++ firstn k segs) s) /\
    (r = inl tt \/ r = inr SynthesisError).
Proof.
  revert s s' r. induction segs as [|seg segs IH]; intros s s' r Hw.
  - simpl in Hw. injection Hw as <- <-. exists 0, []. split; [|auto].
    destruct s; simpl. rewrite app_nil_r. reflexivity.
  - simpl in Hw. unfold synthesize_audio, bind, modify, ret, raise in Hw.
    simpl in Hw. destruct (synth seg) as [b|] eqn:Hs.
    + apply IH in Hw as [k [ds [Hs' Hr]]].
      exists (S k), (b :: ds). split; [|exact Hr].
      rewrite Hs'. destruct s; simpl. rewrite <- app_assoc. reflexivity.
    + injection Hw as <- <-. exists 1, []. split; [|auto].
      destruct s; simpl. reflexivity.
Qed.

Lemma process_and_play_audio_spec (t : text) (s s' : St) (r : unit + exn) :
  process_and_play_audio synth play_ok t s = (s', r) ->
  exists k ds,
    let f := next_file s in
    let fs := write_all f ds (files s ++ [(f, [])]) in
    memory s' = memory s /\ asked s' = asked s /\ is_finals s' = is_finals s /\
    has_introduced s' = has_introduced s /\ gen_calls s' = gen_calls s /\
    next_file s' = S f /\
    tts_log s' = tts_log s ++ firstn k (segment_text_by_sentence t) /\
    ((r = inl tt /\ mute s' = false /\ files s' = remove_file f fs) \/
     (r = inr SynthesisError /\ mute s' = mute s /\ files s' = fs) \/
     (r = inr PlaybackError /\ mute s' = true /\ files s' = fs)).
Proof.
  intros Hp. unfold process_and_play_audio in Hp.
  unfold bind at 1 in Hp. rewrite new_tempfile_eq in Hp.
  unfold bind at 1 in Hp.
  destruct (write_segments synth _ _ _) as [s1 r1] eqn:Hw.
  apply write_segments_spec in Hw as [k [ds [Hs1 Hr1]]].
  exists k, ds. simpl.
  destruct Hr1 as [-> | ->].
  - unfold bind, modify in Hp. rewrite play_audio_eq in Hp.
    destruct (play_ok _) eqn:Hplay.
    + inversion Hp; subst. simpl. repeat split; auto.
    + inversion Hp; subst. simpl. repeat split; auto.
  - inversion Hp; subst. simpl. repeat split; auto.
Qed.

(** The three ways [on_message] can go: the event is dropped, it is
    buffered, or it starts a reply, which runs the steps of lines 155-181
    in order and stops at the first exception. *)
Lemma on_message_cases (ev : event) (s s' : St) (res : unit + exn) :
  on_message gen synth play_ok ev s = (s', res) ->
  (s' = s /\ res = inl tt /\
   (mute s = true \/ transcript ev = [] \/
    (mute s = false /\ transcript ev <> [] /\ is_final ev = false))) \/
  (s' = set_is_finals (is_finals s ++ [transcript ev]) s /\ res = inl tt /\
   mute s = false /\ transcript ev <> [] /\
   is_final ev = true /\ speech_final ev = false) \/
  (mute s = false /\ transcript ev <> [] /\
   is_final ev = true /\ speech_final ev = true /\
   ((exists e, get_ai_response gen (user_turn_state ev s) = (s', inr e) /\ res = inr e) \/
    (exists s1 g s2 g2,
       get_ai_response gen (user_turn_state ev s) = (s1, inl g) /\
       introduce g s1 = (s2, inl g2) /\
       ((exists e, dup_loop gen 3 g2 0 s2 = (s', inr e) /\ res = inr e) \/
        (exists s3 g3,
           dup_loop gen 3 g2 0 s2 = (s3, inl g3) /\
           let s4 := set_asked (set_update (asked s3) (extract_questions g3)) s3 in
           let g5 := closing_of (asked s4) g3 in
           process_and_play_audio synth play_ok g5
             (set_memory (memory s4 ++ [(Assistant, g5)]) s4) = (s', res)))))).
Proof.
  intros H. unfold on_message in H.
  cbv beta iota delta [bind get modify ret] in H.
  destruct (mute s) eqn:Hm.
  { left. injection H as <- <-. auto. }
  destruct (transcript ev) as [|c t] eqn:Ht.
  { left. injection H as <- <-. auto. }
  cbn [List.length Nat.eqb] in H.
  destruct (is_final ev) eqn:Hf.
  2:{ left. injection H as <- <-. split; [reflexivity|]. split; [reflexivity|].
      right. right. split; [reflexivity|]. split; [discriminate | reflexivity]. }
  destruct (speech_final ev) eqn:Hsf.
  2:{ right. left. injection H as <- <-. repeat split; auto. discriminate. }
  right. right. split; [reflexivity|]. split; [discriminate|]. repeat split.
  unfold user_turn_state. rewrite Ht.
  destruct (get_ai_response gen _) as [s1 [g|e]] eqn:E1.
  2:{ left. exists e. injection H as <- <-. auto. }
  right. destruct (introduce g s1) as [s2 [g2|e]] eqn:E2.
  2:{ rewrite introduce_eq in E2. destruct (has_introduced s1); discriminate. }
  exists s1, g, s2, g2. split; [reflexivity|]. split; [exact E2|].
  destruct (dup_loop gen 3 g2 0 s2) as [s3 [g3|e]] eqn:E3.
  2:{ left. exists e. injection H as <- <-. auto. }
  right. exists s3, g3. split; [reflexivity|].
  rewrite record_eq, ensure_closing_eq in H. exact H.
Qed.

Lemma introduce_eq' (g : text) (s : St) :
  introduce g s =
  (set_has_introduced true s,
   inl (if has_introduced s then g else intro_line ++ g)).
Proof.
  rewrite introduce_eq. destruct s as [? ? ? ? [] ? ? ? ? ?]; reflexivity.
Qed.

Lemma get_ai_response_state (s s1 : St) (r : text + exn) :
  get_ai_response gen s = (s1, r) ->
  s1 = set_gen_calls (S (gen_calls s)) s /\ (forall e, r = inr e -> e = GenerationError).
Proof.
  rewrite get_ai_response_eq. intros H. injection H as <- <-.
  split; [reflexivity|]. intros e He.
  destruct (gen _ _ _); inversion He; reflexivity.
Qed.

Lemma is_duplicate_question_nil (t : text) : is_duplicate_question t [] = false.
Proof.
  unfold is_duplicate_question. induction (extract_questions t); simpl; auto.
Qed.

Lemma set_update_incl (l qs : list text) : incl l (set_update l qs).
Proof.
  revert l. induction qs as [|q qs IH]; intros l; simpl; [apply incl_refl|].
  eapply incl_tran; [|apply IH]. unfold set_add_text.
  destruct (existsb _ _); [apply incl_refl | apply incl_appl, incl_refl].
Qed.

Lemma set_update_mem (l qs : list text) (q : text) :
  In q qs -> In q (set_update l qs).
Proof.
  revert l. induction qs as [|x qs IH]; intros l Hq; simpl; [destruct Hq|].
  destruct Hq as [-> | Hq]; [|apply IH, Hq].
  apply set_update_incl. unfold set_add_text.
  destruct (existsb (text_eqb q) l) eqn:He.
  - apply existsb_exists in He as [y [Hy Heq]].
    apply text_eqb_true_iff in Heq. subst. exact Hy.
  - apply in_or_app. right. left. reflexivity.
Qed.

Lemma set_update_forall (P : text -> Prop) (l qs : list text) :
  Forall P l -> Forall P qs -> Forall P (set_update l qs).
Proof.
  revert l. induction qs as [|q qs IH]; intros l Hl Hqs; simpl; [exact Hl|].
  inversion Hqs; subst. apply IH; [|assumption].
  unfold set_add_text. destruct (existsb _ _); [exact Hl|].
  apply Forall_app. auto.
Qed.

Lemma dup_loop_not_dup (n : nat) (r : text) (k : nat) (s : St) :
  is_duplicate_question r (asked s) = false -> dup_loop gen (S n) r k s = (s, inl r).
Proof. intros H. simpl. unfold bind, get, ret. rewrite H. reflexivity. Qed.

Lemma dup_loop_no_question (n : nat) (r : text) (k : nat) (s : St) :
  asked s = [] -> dup_loop gen (S n) r k s = (s, inl r).
Proof.
  intros H. apply dup_loop_not_dup. rewrite H. apply is_duplicate_question_nil.
Qed.

(** What a turn does to the question set: nothing, or [record] of one reply. *)
Lemma on_message_asked (ev : event) (s s' : St) (res : unit + exn) :
  on_message gen synth play_ok ev s = (s', res) ->
  asked s' = asked s \/
  exists g, asked s' = set_update (asked s) (extract_questions g).
Proof.
  intros H. apply on_message_cases in H.
  destruct H as [[-> _] | [[-> _] | [_ [_ [_ [_ Hturn]]]]]]; [auto | auto|].
  destruct Hturn as [[e [E1 _]] | [s1 [g [s2 [g2 [E1 [E2 Hrest]]]]]]].
  - apply get_ai_response_state in E1 as [-> _]. left. reflexivity.
  - apply get_ai_response_state in E1 as [-> _].
    rewrite introduce_eq' in E2. injection E2 as <- _.
    destruct Hrest as [[e [E3 _]] | [s3 [g3 [E3 E4]]]].
    + apply dup_loop_spec in E3 as [-> _]; [|reflexivity]. left. reflexivity.
    + apply dup_loop_spec in E3 as [Hs3 _]; [|reflexivity]. rewrite Hs3 in E4.
      apply process_and_play_audio_spec in E4 as [k [ds [_ [Ha _]]]].
      right. exists g3. rewrite Ha. reflexivity.
Qed.

(** [has_introduced] is never reset. *)
Lemma on_message_has_introduced (ev : event) (s s' : St) (res : unit + exn) :
  on_message gen synth play_ok ev s = (s', res) ->
  has_introduced s = true -> has_introduced s' = true.
Proof.
  intros H Hi. apply on_message_cases in H.
  destruct H as [[-> _] | [[-> _] | [_ [_ [_ [_ Hturn]]]]]]; [auto | auto|].
  destruct Hturn as [[e [E1 _]] | [s1 [g [s2 [g2 [E1 [E2 Hrest]]]]]]].
  - apply get_ai_response_state in E1 as [-> _]. exact Hi.
  - apply get_ai_response_state in E1 as [-> _].
    rewrite introduce_eq' in E2. injection E2 as <- _.
    destruct Hrest as [[e [E3 _]] | [s3 [g3 [E3 E4]]]].
    + apply dup_loop_spec in E3 as [-> _]; [|reflexivity]. reflexivity.
    + apply dup_loop_spec in E3 as [Hs3 _]; [|reflexivity]. rewrite Hs3 in E4.
      apply process_and_play_audio_spec in E4 as [k [ds [_ [_ [_ [Hh _]]]]]].
      rewrite Hh. reflexivity.
Qed.

(** Before the introduction has been made no question has been recorded. *)
Lemma on_message_not_introduced (ev : event) (s s' : St) (res : unit + exn) :
  on_message gen synth play_ok ev s = (s', res) ->
  (has_introduced s = false -> asked s = []) ->
  has_introduced s' = false -> asked s' = [].
Proof.
  intros H Hinv Hi'. apply on_message_cases in H.
  destruct H as [[-> _] | [[-> _] | [_ [_ [_ [_ Hturn]]]]]]; [auto | auto|].
  destruct Hturn as [[e [E1 _]] | [s1 [g [s2 [g2 [E1 [E2 Hrest]]]]]]].
  - apply get_ai_response_state in E1 as [-> _]. exact (Hinv Hi').
  - apply get_ai_response_state in E1 as [-> _].
    rewrite introduce_eq' in E2. injection E2 as <- _.
    destruct Hrest as [[e [E3 _]] | [s3 [g3 [E3 E4]]]].
    + apply dup_loop_spec in E3 as [Hs3 _]; [|reflexivity].
      rewrite Hs3 in Hi'. simpl in Hi'. discriminate Hi'.
    + apply dup_loop_spec in E3 as [Hs3 _]; [|reflexivity]. rewrite Hs3 in E4.
      apply process_and_play_audio_spec in E4 as [k [ds [_ [_ [_ [Hh _]]]]]].
      rewrite Hh in Hi'. simpl in Hi'. discriminate Hi'.
Qed.

Lemma run_app (s : St) (evs1 evs2 : list event) :
  run gen synth play_ok s (evs1 ++ evs2) = run gen synth play_ok (run gen synth play_ok s evs1) evs2.
Proof. unfold run. apply fold_left_app. Qed.

Lemma run_has_introduced (s : St) (evs : list event) :
  has_introduced s = true -> has_introduced (run gen synth play_ok s evs) = true.
Proof.
  revert s. induction evs as [|ev evs IH]; intros s Hs; simpl; [exact Hs|].
  apply IH. unfold handle. destruct (on_message gen synth play_ok ev s) eqn:E.
  apply (on_message_has_introduced ev s s0 s1 E Hs).
Qed.

Lemma run_not_introduced (evs : list event) :
  has_introduced (run gen synth play_ok init_state evs) = false -> asked (run gen synth play_ok init_state evs) = [].
Proof.
  induction evs as [|ev evs IH] using rev_ind; [reflexivity|].
  rewrite run_app. simpl. unfold handle.
  destruct (on_message gen synth play_ok ev (run gen synth play_ok init_state evs)) eqn:E.
  apply (on_message_not_introduced ev _ _ _ E IH).
Qed.

Lemma write_file_fresh (f : nat) (d : list Byte.byte) (fs : list file) (e : list Byte.byte) :
  ~ In f (map fst fs) -> write_file f d (fs ++ [(f, e)]) = fs ++ [(f, e ++ d)].
Proof.
  intros Hn. unfold write_file. rewrite map_app. simpl. rewrite Nat.eqb_refl.
  f_equal. induction fs as [|[n x] fs IH]; simpl; [reflexivity|].
  simpl in Hn. destruct (Nat.eqb_spec n f); [exfalso; apply Hn; left; auto|].
  f_equal. apply IH. intros Hin. apply Hn. right. exact Hin.
Qed.

Lemma write_all_fresh (f : nat) (ds : list (list Byte.byte)) (fs : list file)
  (e : list Byte.byte) :
  ~ In f (map fst fs) -> write_all f ds (fs ++ [(f, e)]) = fs ++ [(f, e ++ List.concat ds)].
Proof.
  intros Hn. unfold write_all. revert e. induction ds as [|d ds IH]; intros e; simpl.
  - rewrite app_nil_r. reflexivity.
  - rewrite write_file_fresh by exact Hn. rewrite IH, app_assoc. reflexivity.
Qed.

Lemma remove_file_fresh (f : nat) (fs : list file) (d : list Byte.byte) :
  ~ In f (map fst fs) -> remove_file f (fs ++ [(f, d)]) = fs.
Proof.
  intros Hn. unfold remove_file. rewrite filter_app. simpl. rewrite Nat.eqb_refl.
  simpl. rewrite app_nil_r.
  induction fs as [|[n x] fs IH]; simpl; [reflexivity|].
  simpl in Hn. destruct (Nat.eqb_spec n f); [exfalso; apply Hn; left; auto|].
  simpl. f_equal. apply IH. intros Hin. apply Hn. right. exact Hin.
Qed.

(** ** The claims about a turn *)

(** Claim C1, as amended.  A turn that starts unmuted ends unmuted when
    generation, synthesis and playback succeed, and also when generation or
    synthesis raises (the flag is set only once all segments are
    synthesised); when playback raises, [mute_microphone] is left set. *)
Theorem on_message_mute_after_turn (ev : event) (s s' : St) (res : unit + exn)
  (Hm : mute s = false) (H : on_message gen synth play_ok ev s = (s', res)) :
  (res = inr PlaybackError /\ mute s' = true) \/
  (res <> inr PlaybackError /\ mute s' = false).
Proof.
  apply on_message_cases in H.
  destruct H as [[-> [-> _]] | [[-> [-> _]] | [_ [_ [_ [_ Hturn]]]]]].
  - right. split; [discriminate | exact Hm].
  - right. split; [discriminate | exact Hm].
  - destruct Hturn as [[e [E1 ->]] | [s1 [g [s2 [g2 [E1 [E2 Hrest]]]]]]].
    + apply get_ai_response_state in E1 as [-> He].
      rewrite (He e eq_refl). right. split; [discriminate|]. exact Hm.
    + apply get_ai_response_state in E1 as [-> _].
      rewrite introduce_eq' in E2. injection E2 as <- _.
      destruct Hrest as [[e [E3 ->]] | [s3 [g3 [E3 E4]]]].
      * apply dup_loop_spec in E3 as [Hs3 [_ [He _]]]; [|reflexivity].
        rewrite (He e eq_refl), Hs3. right. split; [discriminate|]. exact Hm.
      * apply dup_loop_spec in E3 as [Hs3 _]; [|reflexivity]. rewrite Hs3 in E4.
        apply process_and_play_audio_spec in E4
          as [k [ds [_ [_ [_ [_ [_ [_ [_ Hcases]]]]]]]]].
        destruct Hcases as [[-> [Hmu _]] | [[-> [Hmu _]] | [-> [Hmu _]]]].
        -- right. split; [discriminate | exact Hmu].
        -- right. split; [discriminate|]. rewrite Hmu. exact Hm.
        -- left. auto.
Qed.

(** Claim C3.  On the first reply of a session ([has_introduced] still
    false) the reply appended to the memory and sent to speech synthesis is
    the introduction line followed by Gemini's answer (and possibly the
    closing line); [has_introduced] becomes true and stays true whatever
    events follow.  No regeneration can happen on that turn: no question has
    been recorded before the introduction. *)
Theorem first_reply_introduced (evs : list event) (ev : event) (g : text)
  (s' : St) (res : unit + exn)
  (Hm : mute (run gen synth play_ok init_state evs) = false)
  (Hi : has_introduced (run gen synth play_ok init_state evs) = false)
  (Ht : transcript ev <> []) (Hf : is_final ev = true)
  (Hsf : speech_final ev = true)
  (Hg : gen (gen_calls (run gen synth play_ok init_state evs)) (asked (run gen synth play_ok init_state evs))
            (lastn 6 (memory (user_turn_state ev (run gen synth play_ok init_state evs)))) = Some g)
  (H : on_message gen synth play_ok ev (run gen synth play_ok init_state evs) = (s', res)) :
  has_introduced s' = true /\
  (exists reply,
      (reply = intro_line ++ strip g \/ reply = intro_line ++ strip g ++ closing_line) /\
      memory s' = memory (run gen synth play_ok init_state evs) ++
                  [(User, strip (transcript ev)); (Assistant, reply)] /\
      exists k, tts_log s' = tts_log (run gen synth play_ok init_state evs) ++
                             firstn k (segment_text_by_sentence reply)) /\
  forall evs', has_introduced (run gen synth play_ok s' evs') = true.
Proof.
  set (s := run gen synth play_ok init_state evs) in *.
  assert (Ha : asked s = []) by (apply run_not_introduced; exact Hi).
  assert (Hfirst : has_introduced s' = true /\
     (exists reply,
      (reply = intro_line ++ strip g \/ reply = intro_line ++ strip g ++ closing_line) /\
      memory s' = memory s ++ [(User, strip (transcript ev)); (Assistant, reply)] /\
      exists k, tts_log s' = tts_log s ++ firstn k (segment_text_by_sentence reply))).
  { apply on_message_cases in H.
    destruct H as [[_ [_ [Hx | [Hx | [_ [_ Hx]]]]]] | [[_ [_ [_ [_ [_ Hx]]]]] | [_ [_ [_ [_ Hturn]]]]]];
      try congruence.
    destruct Hturn as [[e [E1 _]] | [s1 [g1 [s2 [g2 [E1 [E2 Hrest]]]]]]].
    - rewrite get_ai_response_eq in E1. unfold user_turn_state in E1, Hg.
      simpl in E1, Hg. rewrite Hg in E1. discriminate.
    - assert (E1' := E1). rewrite get_ai_response_eq in E1'.
      unfold user_turn_state in E1', Hg. simpl in E1', Hg. rewrite Hg in E1'.
      injection E1' as <- <-.
      rewrite introduce_eq' in E2. simpl in E2. unfold user_turn_state in E2.
      simpl in E2. rewrite Hi in E2. injection E2 as <- <-.
      destruct Hrest as [[e [E3 _]] | [s3 [g3 [E3 E4]]]].
      + rewrite dup_loop_no_question in E3; [discriminate | exact Ha].
      + rewrite dup_loop_no_question in E3; [|exact Ha].
        injection E3 as <- <-.
        apply process_and_play_audio_spec in E4
          as [k [ds [Hmem [_ [_ [Hh [_ [_ [Htts _]]]]]]]]].
        split; [exact Hh|].
        eexists. split; [|split; [rewrite Hmem; cbn [memory set_memory set_asked set_has_introduced set_gen_calls set_is_finals]; rewrite <- app_assoc; reflexivity | exists k; exact Htts]].
        unfold closing_of. destruct (_ && _); [right; rewrite app_assoc | left]; reflexivity. }
  destruct Hfirst as [Hh Hrest]. split; [exact Hh|]. split; [exact Hrest|].
  intros evs'. apply run_has_introduced. exact Hh.
Qed.


(** Claim C6, as amended.  Recording a reply adds each extracted question
    fragment, trimmed but not case-folded, to [asked_questions]; from the
    start of a session every member is a trimmed string and the set only
    grows. *)
Theorem asked_questions_grow_trimmed :
  (forall r s q, In q (extract_questions r) ->
     In q (asked (fst (record r s))) /\ strip q = q) /\
  (forall evs1 evs2,
     incl (asked (run gen synth play_ok init_state evs1)) (asked (run gen synth play_ok (run gen synth play_ok init_state evs1) evs2)) /\
     Forall (fun q => strip q = q) (asked (run gen synth play_ok (run gen synth play_ok init_state evs1) evs2))).
Proof.
  split.
  - intros r s q Hq. split.
    + rewrite record_eq. simpl. apply set_update_mem. exact Hq.
    + apply (extract_questions_trimmed r). exact Hq.
  - assert (Hstep : forall s ev,
      incl (asked s) (asked (handle gen synth play_ok s ev)) /\
      (Forall (fun q => strip q = q) (asked s) ->
       Forall (fun q => strip q = q) (asked (handle gen synth play_ok s ev)))).
    { intros s ev. unfold handle.
      destruct (on_message gen synth play_ok ev s) as [s' res] eqn:E.
      simpl. apply on_message_asked in E as [-> | [g ->]].
      - split; [apply incl_refl | auto].
      - split; [apply set_update_incl|]. intros Hall. apply set_update_forall; [exact Hall|].
        apply Forall_forall. intros q Hq. apply (extract_questions_trimmed g). exact Hq. }
    assert (Hrun : forall evs s,
      incl (asked s) (asked (run gen synth play_ok s evs)) /\
      (Forall (fun q => strip q = q) (asked s) ->
       Forall (fun q => strip q = q) (asked (run gen synth play_ok s evs)))).
    { induction evs as [|ev evs IH]; intros s; simpl; [split; [apply incl_refl | auto]|].
      destruct (Hstep s ev) as [Hi1 Hf1]. destruct (IH (handle gen synth play_ok s ev)) as [Hi2 Hf2].
      split; [eapply incl_tran; eauto | auto]. }
    intros evs1 evs2. split; [apply Hrun|].
    rewrite <- run_app. apply Hrun. constructor.
Qed.

(** Claim C7, as amended.  When a turn appends a reply to the memory, that
    reply is the loop's reply [g3] (whose questions were just recorded) with
    the closing line appended exactly when the question set then has at
    least 5 members and [g3], lower-cased, does not contain "closing".
    Nothing records that a closing was already produced, and the closing
    line itself does not contain "closing". *)
Theorem closing_appended_per_reply (ev : event) (s s' : St) (res : unit + exn)
  (u reply : text)
  (H : on_message gen synth play_ok ev s = (s', res))
  (Hmem : memory s' = memory s ++ [(User, u); (Assistant, reply)]) :
  (exists g3, asked s' = set_update (asked s) (extract_questions g3) /\
              reply = closing_of (asked s') g3) /\
  contains (lower closing_line) (str "closing") = false.
Proof.
  split; [|reflexivity].
  assert (Hlen : forall x, memory s' = memory s ++ [x] -> False).
  { intros x Hx. rewrite Hmem in Hx. apply app_inv_head in Hx. discriminate. }
  apply on_message_cases in H.
  destruct H as [[-> _] | [[-> _] | [_ [_ [_ [_ Hturn]]]]]].
  - exfalso. apply (f_equal (@List.length turn)) in Hmem.
    rewrite length_app in Hmem. simpl in Hmem. lia.
  - exfalso. apply (f_equal (@List.length turn)) in Hmem.
    rewrite length_app in Hmem. simpl in Hmem. lia.
  - destruct Hturn as [[e [E1 _]] | [s1 [g [s2 [g2 [E1 [E2 Hrest]]]]]]].
    + apply get_ai_response_state in E1 as [Hs' _].
      exfalso. apply (Hlen (User, strip (transcript ev))). rewrite Hs'. reflexivity.
    + apply get_ai_response_state in E1 as [-> _].
      rewrite introduce_eq' in E2. injection E2 as <- _.
      destruct Hrest as [[e [E3 _]] | [s3 [g3 [E3 E4]]]].
      * apply dup_loop_spec in E3 as [Hs' _]; [|reflexivity].
        exfalso. apply (Hlen (User, strip (transcript ev))). rewrite Hs'. reflexivity.
      * apply dup_loop_spec in E3 as [Hs3 _]; [|reflexivity]. rewrite Hs3 in E4.
        apply process_and_play_audio_spec in E4 as [k [ds [Hm [Ha _]]]].
        exists g3. rewrite Ha. split; [reflexivity|].
        rewrite Hmem in Hm. cbn [memory set_memory set_asked set_has_introduced
                                 set_gen_calls set_is_finals user_turn_state] in Hm.
        rewrite <- app_assoc in Hm. apply app_inv_head in Hm.
        injection Hm as _ Hr. rewrite Hr. reflexivity.
Qed.

(** Claim C9, as amended.  Each call of [process_and_play_audio] creates a
    fresh temporary file; it is deleted after a successful playback, but it
    stays on disk when synthesis or playback raises
    ([NamedTemporaryFile(delete=False)] and no [finally]). *)
Theorem process_and_play_audio_tempfile (t : text) (s s' : St) (r : unit + exn)
  (Hfresh : forall n d, In (n, d) (files s) -> n < next_file s)
  (H : process_and_play_audio synth play_ok t s = (s', r)) :
  ~ In (next_file s) (map fst (files s)) /\
  next_file s' = S (next_file s) /\
  (r = inl tt -> files s' = files s) /\
  (forall e, r = inr e ->
     (e = SynthesisError \/ e = PlaybackError) /\
     exists d, files s' = files s ++ [(next_file s, d)]).
Proof.
  assert (Hnot : ~ In (next_file s) (map fst (files s))).
  { intros Hin. apply in_map_iff in Hin as [[n d] [Hn Hin]]. simpl in Hn. subst n.
    apply Hfresh in Hin. lia. }
  apply process_and_play_audio_spec in H
    as [k [ds [_ [_ [_ [_ [_ [Hnext [_ Hcases]]]]]]]]].
  rewrite (write_all_fresh (next_file s) ds (files s) [] Hnot) in Hcases.
  split; [exact Hnot|]. split; [exact Hnext|].
  destruct Hcases as [[-> [_ Hf]] | [[-> [_ Hf]] | [-> [_ Hf]]]].
  - split.
    + intros _. rewrite Hf. apply remove_file_fresh. exact Hnot.
    + intros e He. discriminate.
  - split; [discriminate|]. intros e He. injection He as <-.
    split; [left; reflexivity|]. eexists. exact Hf.
  - split; [discriminate|]. intros e He. injection He as <-.
    split; [right; reflexivity|]. eexists. exact Hf.
Qed.

(** Claim C10.  An event whose transcript is empty leaves the whole state
    unchanged (fragment buffer, memory, question set, mute flag,
    [has_introduced], and the logs of Gemini, TTS and playback requests). *)
Theorem on_message_empty_transcript (ev : event) (s : St)
  (Ht : transcript ev = []) :
  on_message gen synth play_ok ev s = (s, inl tt).
Proof.
  unfold on_message, bind, get, ret. simpl.
  destruct (mute s); [reflexivity|]. rewrite Ht. reflexivity.
Qed.

End ProgramProofs.

(** ** Concrete runs *)

(** Claim C1, counterexample: when playback raises, the turn ends with
    [mute_microphone] still set. *)
Lemma playback_failure_leaves_mute_set :
  snd (sample_turn play_none) = inr PlaybackError /\
  mute (fst (sample_turn play_none)) = true.
Proof. vm_compute. split; reflexivity. Qed.

Lemma on_message_mute_after_turn_witness :
  (snd (sample_turn play_all) = inr PlaybackError /\
   mute (fst (sample_turn play_all)) = true) \/
  (snd (sample_turn play_all) <> inr PlaybackError /\
   mute (fst (sample_turn play_all)) = false).
Proof.
  apply (on_message_mute_after_turn gen_sample synth_sample play_all
           (speech_final_event "Hi") init_state
           (fst (sample_turn play_all)) (snd (sample_turn play_all))).
  - reflexivity.
  - unfold sample_turn. exact (surjective_pairing _).
Defined.

(** Claim C2, failing input: the final fragment "Hello" followed by the
    speech-final fragment "world".  The user turn stored is "world" (the
    last fragment, [sentence.strip()]), not the joined utterance
    "Hello world"; the buffer is emptied. *)
Lemma speech_final_user_turn_is_last_fragment :
  let s := run gen_sample synth_sample play_all init_state
             [mkEvent (str "Hello") true false; mkEvent (str "world") true true] in
  hd_error (memory s) = Some (User, str "world") /\
  is_finals s = [] /\
  join (str " ") [str "Hello"; str "world"] = str "Hello world".
Proof. vm_compute. split; [|split]; reflexivity. Qed.

Lemma first_reply_introduced_witness :
  has_introduced (fst (sample_turn play_all)) = true.
Proof.
  refine (proj1 (first_reply_introduced gen_sample synth_sample play_all []
            (speech_final_event "Hi")
            (str "What is A? What is B? What is C? What is D?")
            (fst (sample_turn play_all)) (snd (sample_turn play_all))
            _ _ _ _ _ _ _)).
  - reflexivity.
  - reflexivity.
  - discriminate.
  - reflexivity.
  - reflexivity.
  - vm_compute. reflexivity.
  - unfold sample_turn. exact (surjective_pairing _).
Defined.

(** Scenario C of the spec: every answer repeats an asked question; after
    3 retries the fourth answer is accepted as is. *)
Example dup_loop_accepts_fourth_attempt :
  dup_loop gen_repeat 3 (str "What is A?") 0 asked_A =
  (set_gen_calls 3 asked_A, inl (str "What is A?")).
Proof. reflexivity. Qed.


(** Claim C6, counterexample: after the first turn the question set holds
    "How are you today?", which is not case-folded. *)
Lemma asked_questions_not_case_folded :
  In (str "How are you today?") (asked (fst (sample_turn play_all))) /\
  lower (str "How are you today?") <> str "How are you today?".
Proof.
  split.
  - vm_compute. left. reflexivity.
  - vm_compute. discriminate.
Qed.

(** Claim C7, counterexample: the first reply already brings the question
    set to 5 members and gets the closing line; the next reply gets it
    again. *)
Lemma closing_statement_repeated :
  memory (run gen_sample synth_sample play_all init_state
            [speech_final_event "Hi"; speech_final_event "Ok"]) =
  [(User, str "Hi");
   (Assistant, (intro_line ++ str "What is A? What is B? What is C? What is D?")
                 ++ closing_line);
   (User, str "Ok");
   (Assistant, str "Tell me more." ++ closing_line)].
Proof. vm_compute. reflexivity. Qed.

Lemma closing_appended_per_reply_witness :
  contains (lower closing_line) (str "closing") = false.
Proof.
  apply (proj2 (closing_appended_per_reply gen_sample synth_sample play_all
                  (speech_final_event "Hi") init_state
                  (fst (sample_turn play_all)) (snd (sample_turn play_all))
                  (str "Hi")
                  (snd (last (memory (fst (sample_turn play_all))) (User, [])))
                  ltac:(unfold sample_turn; exact (surjective_pairing _))
                  ltac:(vm_compute; reflexivity))).
Defined.

(** Claim C9, counterexample: when the TTS request raises, the temporary
    file stays on disk. *)
Lemma synthesis_failure_leaves_tempfile :
  snd (process_and_play_audio synth_down play_all (str "Hi.") init_state) =
    inr SynthesisError /\
  files (fst (process_and_play_audio synth_down play_all (str "Hi.") init_state)) =
    [(0, [])].
Proof. vm_compute. split; reflexivity. Qed.

Lemma process_and_play_audio_tempfile_witness :
  next_file (fst (process_and_play_audio synth_sample play_all (str "Hi.") init_state)) = 1.
Proof.
  apply (proj1 (proj2 (process_and_play_audio_tempfile synth_sample play_all
           (str "Hi.") init_state
           (fst (process_and_play_audio synth_sample play_all (str "Hi.") init_state))
           (snd (process_and_play_audio synth_sample play_all (str "Hi.") init_state))
           (fun n d H => match H with end) eq_refl))).
Defined.

Lemma on_message_empty_transcript_witness :
  on_message gen_sample synth_sample play_all (mkEvent [] true true) init_state =
  (init_state, inl tt).
Proof.
  apply (on_message_empty_transcript gen_sample synth_sample play_all
           (mkEvent [] true true) init_state).
  reflexivity.
Defined.

(** * Further properties of the helpers *)

(** ** [extract_questions] *)

Lemma span_plain_spec (s : text) :
  let (r, rest) := span_plain s in
  s = r ++ rest /\ forallb (fun c => negb (is_sentence_end c)) r = true /\
  match rest with [] => True | c :: _ => is_sentence_end c = true end.
Proof.
  induction s as [|c t IH]; simpl; [auto|].
  destruct (is_sentence_end c) eqn:Hc; [simpl; auto|].
  destruct (span_plain t) as [r rest]. destruct IH as [-> [Hr Hrest]].
  simpl. rewrite Hc, Hr. auto.
Qed.

Lemma match_question_shorter (s m rest : text) :
  match_question s = Some (m, rest) ->
  List.length rest < List.length s /\
  exists run, m = run ++ ["?"%char] /\
              forallb (fun c => negb (is_sentence_end c)) run = true.
Proof.
  unfold match_question. pose proof (span_plain_spec s) as Hs.
  destruct (span_plain s) as [run r]. destruct Hs as [-> [Hrun _]].
  destruct run as [|x run]; [discriminate|].
  destruct r as [|c r]; [discriminate|].
  destruct c as [[] [] [] [] [] [] [] []]; try discriminate.
  intros H. injection H as <- <-. split.
  - rewrite length_app. simpl. lia.
  - exists (x :: run). split; [reflexivity | exact Hrun].
Qed.

Lemma findall_question_fuel (n m : nat) (s : text) :
  List.length s < n -> List.length s < m ->
  findall_question n s = findall_question m s.
Proof.
  revert m s. induction n as [|n IH]; intros m s Hn Hm; [lia|].
  destruct m as [|m]; [lia|]. simpl.
  destruct (match_question s) as [[q rest]|] eqn:Hq.
  - apply match_question_shorter in Hq as [Hlt _].
    f_equal. apply IH; lia.
  - destruct s as [|c t]; [reflexivity|]. simpl in Hn, Hm. apply IH; lia.
Qed.

Lemma findall_question_shape (n : nat) (s q : text) :
  In q (findall_question n s) ->
  exists run, q = run ++ ["?"%char] /\
              forallb (fun c => negb (is_sentence_end c)) run = true.
Proof.
  revert s. induction n as [|n IH]; intros s Hq; simpl in Hq; [destruct Hq|].
  destruct (match_question s) as [[m rest]|] eqn:Hm.
  - destruct Hq as [<- | Hq]; [|exact (IH rest Hq)].
    apply match_question_shorter in Hm as [_ Hex]. exact Hex.
  - destruct s as [|c t]; [destruct Hq | exact (IH t Hq)].
Qed.

Lemma lstrip_snoc (x : text) (c : ascii) :
  is_space c = false -> lstrip (x ++ [c]) = lstrip x ++ [c].
Proof.
  intros Hc. induction x as [|a x IH]; simpl; [rewrite Hc; reflexivity|].
  destruct (is_space a); [exact IH | reflexivity].
Qed.

Lemma strip_snoc (x : text) (c : ascii) :
  is_space c = false -> strip (x ++ [c]) = lstrip x ++ [c].
Proof.
  intros Hc. unfold strip, rstrip. rewrite lstrip_snoc by exact Hc.
  rewrite rev_app_distr.
  change (rev [c] ++ rev (lstrip x)) with (c :: rev (lstrip x)).
  cbn [lstrip]. rewrite Hc.
  change (rev (c :: rev (lstrip x))) with (rev (rev (lstrip x)) ++ [c]).
  rewrite rev_involutive. reflexivity.
Qed.

Lemma lstrip_suffix (x : text) : exists l, x = l ++ lstrip x.
Proof. destruct (lstrip_split x) as [l [H _]]. eauto. Qed.

(** Every extracted question is a trimmed fragment that ends with its only
    sentence punctuation, the question mark. *)
Theorem extract_questions_shape (t q : text) :
  In q (extract_questions t) ->
  strip q = q /\
  exists body, q = body ++ ["?"%char] /\
               forallb (fun c => negb (is_sentence_end c)) body = true.
Proof.
  intros Hq. split; [exact (extract_questions_trimmed t q Hq)|].
  unfold extract_questions in Hq. apply in_map_iff in Hq as [m [<- Hm]].
  apply findall_question_shape in Hm as [run [-> Hrun]].
  rewrite strip_snoc by reflexivity.
  exists (lstrip run). split; [reflexivity|].
  destruct (lstrip_suffix run) as [l Hl]. rewrite Hl in Hrun.
  rewrite forallb_app in Hrun. apply andb_true_iff in Hrun as [_ H]. exact H.
Qed.

(** A text without a question mark has no questions. *)
Theorem extract_questions_no_question_mark (t : text) :
  ~ In "?"%char t -> extract_questions t = [].
Proof.
  intros Hno. unfold extract_questions. generalize (S (List.length t)) as n.
  revert Hno. generalize t as s. clear t.
  intros s Hno n. revert s Hno. induction n as [|n IH]; intros s Hno; simpl; [reflexivity|].
  destruct (match_question s) as [[m rest]|] eqn:Hm.
  - exfalso. unfold match_question in Hm. pose proof (span_plain_spec s) as Hs.
    destruct (span_plain s) as [run r]. destruct Hs as [Hs _].
    destruct run as [|x run]; [discriminate|].
    destruct r as [|c r]; [discriminate|].
    destruct c as [[] [] [] [] [] [] [] []]; try discriminate.
    apply Hno. rewrite Hs. apply in_or_app. right. left. reflexivity.
  - destruct s as [|c t]; [reflexivity|]. apply IH.
    intros Hin. apply Hno. right. exact Hin.
Qed.

Lemma span_plain_app_end (a b : text) (c : ascii) :
  is_sentence_end c = true ->
  span_plain (a ++ c :: b) = (fst (span_plain a), snd (span_plain a) ++ c :: b).
Proof.
  intros Hc. induction a as [|x a IH]; simpl; [rewrite Hc; reflexivity|].
  destruct (is_sentence_end x); [reflexivity|].
  rewrite IH. destruct (span_plain a); reflexivity.
Qed.

Lemma match_question_app_end (a b : text) (c : ascii) :
  c = "."%char \/ c = "!"%char ->
  match_question (a ++ c :: b) =
  option_map (fun '(m, rest) => (m, rest ++ c :: b)) (match_question a).
Proof.
  intros Hc. unfold match_question.
  rewrite span_plain_app_end by (destruct Hc as [-> | ->]; reflexivity).
  destruct (span_plain a) as [[|x r] rest]; [reflexivity|]. cbn [fst snd].
  destruct rest as [|d rest].
  - destruct Hc as [-> | ->]; reflexivity.
  - destruct d as [[] [] [] [] [] [] [] []]; reflexivity.
Qed.

Lemma findall_question_S (n : nat) (s : text) :
  findall_question (S n) s =
  match match_question s with
  | Some (m, rest) => m :: findall_question n rest
  | None => match s with [] => [] | _ :: t => findall_question n t end
  end.
Proof. reflexivity. Qed.

Lemma findall_question_app_end (b : text) (c : ascii) :
  c = "."%char \/ c = "!"%char ->
  forall n a, List.length (a ++ c :: b) < n ->
  findall_question n (a ++ c :: b) =
  findall_question (S (List.length a)) a ++ findall_question (S (List.length b)) b.
Proof.
  intros Hc n. induction n as [|n IH]; intros a Hn; [lia|].
  rewrite length_app in Hn. cbn [List.length] in Hn.
  rewrite (findall_question_S n), (findall_question_S (List.length a)).
  rewrite match_question_app_end by exact Hc.
  destruct (match_question a) as [[m rest]|] eqn:Hm; cbn [option_map].
  - pose proof (match_question_shorter a m rest Hm) as [Hlt _].
    rewrite IH by (rewrite length_app; cbn [List.length]; lia).
    cbn [app]. f_equal. f_equal. apply findall_question_fuel; lia.
  - destruct a as [|x a].
    + cbn [app]. apply findall_question_fuel; cbn [List.length] in *; lia.
    + cbn [app List.length] in *. rewrite IH by (rewrite length_app; cbn [List.length]; lia).
      reflexivity.
Qed.

(** [re.findall] never lets a question cross a full stop or an exclamation
    mark: the questions of [a . b] (resp. [a ! b]) are those of [a]
    followed by those of [b]. *)
Theorem extract_questions_split (a b : text) (c : ascii) :
  c = "."%char \/ c = "!"%char ->
  extract_questions (a ++ c :: b) = extract_questions a ++ extract_questions b.
Proof.
  intros Hc. unfold extract_questions.
  rewrite (findall_question_app_end b c Hc) by lia. apply map_app.
Qed.

(** ** Case folding *)














(** Once a reply has been recorded into [asked_questions] (lines 170-171),
    [is_duplicate_question] flags that same reply exactly when it contains a
    question. *)
Theorem record_then_duplicate (r : text) (s : St) :
  is_duplicate_question r (asked (fst (record r s))) = true <->
  extract_questions r <> [].
Proof.
  cbn [record modify fst asked set_asked]. unfold is_duplicate_question. split.
  - intros H Hnil. rewrite Hnil in H. discriminate.
  - intros Hne. destruct (extract_questions r) as [|q qs] eqn:Hq; [congruence|].
    cbn [existsb]. apply orb_true_iff. left.
    apply existsb_exists. exists q. split.
    + apply set_update_mem. left. reflexivity.
    + apply text_eqb_true_iff. reflexivity.
Qed.

(** A reply flagged as a duplicate of some known questions stays flagged
    when more questions are known. *)
Theorem is_duplicate_question_mono (t : text) (known known' : list text) :
  incl known known' ->
  is_duplicate_question t known = true -> is_duplicate_question t known' = true.
Proof.
  intros Hinc. unfold is_duplicate_question. rewrite !existsb_exists.
  intros [q [Hq He]]. exists q. split; [exact Hq|].
  apply existsb_exists in He as [e [He Heq]]. apply existsb_exists.
  exists e. split; [apply Hinc, He | exact Heq].
Qed.

(** ** [segment_text_by_sentence] *)

Lemma sentence_boundaries_none (s : text) :
  forall prev inrun i,
  has_boundary (match prev with None => s | Some p => p :: s end) = false ->
  sentence_boundaries prev inrun i s = [].
Proof.
  induction s as [|c t IH]; intros prev inrun i H; [reflexivity|].
  assert (Ht : has_boundary (c :: t) = false).
  { destruct prev as [p|]; [|exact H].
    cbn [has_boundary] in H. fold (has_boundary (c :: t)) in H.
    apply orb_false_iff in H as [_ H]. exact H. }
  cbn [sentence_boundaries].
  destruct (inrun && is_space c); [apply IH; exact Ht|].
  destruct prev as [p|].
  - cbn [has_boundary] in H. fold (has_boundary (c :: t)) in H.
    apply orb_false_iff in H as [H _]. rewrite H. apply IH. exact Ht.
  - cbn [andb]. apply IH. exact Ht.
Qed.

(** A text in which no [.], [!] or [?] is followed by whitespace is sent to
    the TTS service in one piece, stripped. *)
Theorem segment_text_by_sentence_single (t : text) :
  has_boundary t = false -> segment_text_by_sentence t = [strip t].
Proof.
  intros H. unfold segment_text_by_sentence.
  rewrite (sentence_boundaries_none t None false 0 H). reflexivity.
Qed.

(** [segment_text_by_sentence] always returns at least one segment, and
    every segment is already stripped. *)
Theorem segment_text_by_sentence_trimmed (t : text) :
  segment_text_by_sentence t <> [] /\
  Forall (fun g => strip g = g) (segment_text_by_sentence t).
Proof.
  unfold segment_text_by_sentence. rewrite segments_from_pieces. split.
  - destruct (sentence_boundaries None false 0 t); discriminate.
  - apply Forall_map, Forall_forall. intros x _. apply strip_idem.
Qed.


(** ** Turns and sessions *)

Section MoreProofs.

Variable gen : nat -> list text -> list turn -> option text.
Variable synth : text -> option (list Byte.byte).
Variable play_ok : list Byte.byte -> bool.

(** While [mute_microphone] is set, an event is dropped (lines 139-140):
    nothing in the state changes. *)
Lemma on_message_muted (ev : event) (s : St) :
  mute s = true -> on_message gen synth play_ok ev s = (s, inl tt).
Proof.
  intros Hm. unfold on_message, bind, get, ret. cbn beta iota. rewrite Hm. reflexivity.
Qed.

(** Once [mute_microphone] is left set, the rest of the session is
    ignored: every later event leaves the state as it is. *)
Theorem run_muted (s : St) (evs : list event) :
  mute s = true -> run gen synth play_ok s evs = s.
Proof.
  intros Hm. unfold run. revert s Hm. induction evs as [|ev evs IH]; intros s Hm;
    [reflexivity|].
  cbn [fold_left]. unfold handle at 2. rewrite on_message_muted by exact Hm.
  apply IH. exact Hm.
Qed.

(** Each event either leaves the conversation memory alone, or appends the
    stripped user utterance, or appends it followed by one assistant
    reply: earlier turns are never changed or removed. *)
Theorem on_message_memory (ev : event) (s s' : St) (res : unit + exn) :
  on_message gen synth play_ok ev s = (s', res) ->
  memory s' = memory s \/
  memory s' = memory s ++ [(User, strip (transcript ev))] \/
  exists r, memory s' = memory s ++ [(User, strip (transcript ev)); (Assistant, r)].
Proof.
  intros H. apply on_message_cases in H
    as [[-> _] | [[-> _] | [_ [_ [_ [_ [[e [E1 _]] | [s1 [g [s2 [g2 [E1 [E2 Hrest]]]]]]]]]]]]];
    [left; reflexivity | left; destruct s; reflexivity | |].
  - apply get_ai_response_state in E1 as [-> _]. right. left. reflexivity.
  - apply get_ai_response_state in E1 as [-> _].
    rewrite introduce_eq' in E2. injection E2 as <- _.
    destruct Hrest as [[e [E3 _]] | [s3 [g3 [E3 Hp]]]].
    + apply dup_loop_spec in E3 as [-> _]; [|reflexivity].
      right. left. reflexivity.
    + apply dup_loop_spec in E3 as [Hs3 _]; [|reflexivity].
      apply process_and_play_audio_spec in Hp as [k [ds [Hmem _]]].
      rewrite Hmem, Hs3. right. right. eexists.
      cbn [memory set_memory set_asked set_gen_calls set_has_introduced
           user_turn_state set_is_finals].
      rewrite <- app_assoc. reflexivity.
Qed.

(** Over a whole session the conversation memory only grows at its end. *)
Theorem run_memory_prefix (s : St) (evs : list event) :
  exists suffix, memory (run gen synth play_ok s evs) = memory s ++ suffix.
Proof.
  unfold run. revert s. induction evs as [|ev evs IH]; intros s.
  - exists []. symmetry. apply app_nil_r.
  - cbn [fold_left]. destruct (IH (handle gen synth play_ok s ev)) as [suf Hsuf].
    rewrite Hsuf. unfold handle.
    destruct (on_message gen synth play_ok ev s) as [s1 r] eqn:E. cbn [fst].
    apply on_message_memory in E as [-> | [-> | [r' ->]]].
    + exists suf. reflexivity.
    + exists ([(User, strip (transcript ev))] ++ suf). symmetry. apply app_assoc.
    + exists ([(User, strip (transcript ev)); (Assistant, r')] ++ suf).
      symmetry. apply app_assoc.
Qed.

(** A turn whose Gemini request raises (line 155, or a retry at line 166)
    still records the user utterance and empties the fragment buffer, but
    records no reply, asks nothing new, sends nothing to TTS and plays
    nothing; files and the microphone flag are untouched. *)
Theorem on_message_generation_error (ev : event) (s s' : St) :
  on_message gen synth play_ok ev s = (s', inr GenerationError) ->
  memory s' = memory s ++ [(User, strip (transcript ev))] /\
  is_finals s' = [] /\ asked s' = asked s /\ tts_log s' = tts_log s /\
  played s' = played s /\ files s' = files s /\ mute s' = mute s.
Proof.
  intros H. apply on_message_cases in H
    as [[_ [Hr _]] | [[_ [Hr _]] | [_ [_ [_ [_ [[e [E1 _]] | [s1 [g [s2 [g2 [E1 [E2 Hrest]]]]]]]]]]]]];
    [discriminate | discriminate | |].
  - apply get_ai_response_state in E1 as [-> _]. repeat split.
  - apply get_ai_response_state in E1 as [-> _].
    rewrite introduce_eq' in E2. injection E2 as <- _.
    destruct Hrest as [[e [E3 _]] | [s3 [g3 [E3 Hp]]]].
    + apply dup_loop_spec in E3 as [-> _]; [|reflexivity]. repeat split.
    + apply process_and_play_audio_spec in Hp as [k [ds [_ [_ [_ [_ [_ [_ [_ Hcases]]]]]]]]].
      destruct Hcases as [[Hr _] | [[Hr _] | [Hr _]]]; discriminate.
Qed.

(** A single event makes at most four Gemini requests: the first reply and
    at most three regenerations. *)
Theorem on_message_gen_calls (ev : event) (s s' : St) (res : unit + exn) :
  on_message gen synth play_ok ev s = (s', res) ->
  gen_calls s <= gen_calls s' <= gen_calls s + 4.
Proof.
  intros H. apply on_message_cases in H
    as [[-> _] | [[-> _] | [_ [_ [_ [_ [[e [E1 _]] | [s1 [g [s2 [g2 [E1 [E2 Hrest]]]]]]]]]]]]];
    [lia | cbn; lia | |].
  - apply get_ai_response_state in E1 as [-> _]. cbn. lia.
  - apply get_ai_response_state in E1 as [-> _].
    rewrite introduce_eq' in E2. injection E2 as <- _.
    destruct Hrest as [[e [E3 _]] | [s3 [g3 [E3 Hp]]]].
    + apply dup_loop_spec in E3 as [_ [Hb _]]; [|reflexivity]. cbn in Hb. lia.
    + apply dup_loop_spec in E3 as [_ [Hb _]]; [|reflexivity].
      apply process_and_play_audio_spec in Hp as [k [ds [_ [_ [_ [_ [Hg _]]]]]]].
      cbn in Hg, Hb. rewrite Hg. lia.
Qed.

Lemma read_file_fresh (f : nat) (fs : list file) (d : list Byte.byte) :
  ~ In f (map fst fs) -> read_file f (fs ++ [(f, d)]) = d.
Proof.
  intros Hn. unfold read_file. induction fs as [|[n x] fs IH]; cbn.
  - rewrite Nat.eqb_refl. reflexivity.
  - cbn in Hn. destruct (Nat.eqb_spec n f); [exfalso; apply Hn; left; auto|].
    apply IH. intros Hin. apply Hn. right. exact Hin.
Qed.

Lemma write_segments_ok (f : nat) (segs : list text) (ds : list (list Byte.byte)) (s : St) :
  Forall2 (fun seg d => synth seg = Some d) segs ds ->
  write_segments synth f segs s =
  (set_files (write_all f ds (files s)) (set_tts_log (tts_log s ++ segs) s), inl tt).
Proof.
  intros Hall. revert s. induction Hall as [|seg d segs ds Hd Hall IH]; intros s.
  - cbn. destruct s; cbn. rewrite app_nil_r. reflexivity.
  - cbn [write_segments]. unfold synthesize_audio, bind, modify, ret.
    cbn beta iota. rewrite Hd. rewrite IH. destruct s; cbn.
    rewrite <- app_assoc. reflexivity.
Qed.

Lemma write_segments_fail (f : nat) (pre post : list text) (seg : text)
  (ds : list (list Byte.byte)) (s : St) :
  Forall2 (fun seg d => synth seg = Some d) pre ds -> synth seg = None ->
  write_segments synth f (pre ++ seg :: post) s =
  (set_files (write_all f ds (files s)) (set_tts_log (tts_log s ++ pre ++ [seg]) s),
   inr SynthesisError).
Proof.
  intros Hall Hseg. revert s. induction Hall as [|x d pre ds Hd Hall IH]; intros s.
  - cbn [app write_segments]. unfold synthesize_audio, bind, modify, raise.
    cbn beta iota. rewrite Hseg. destruct s; reflexivity.
  - cbn [app write_segments]. unfold synthesize_audio, bind, modify, ret.
    cbn beta iota. rewrite Hd. fold (@app text). rewrite IH. destruct s; cbn.
    rewrite <- app_assoc. reflexivity.
Qed.

(** When every segment is synthesised and the audio plays, the reply is
    spoken exactly once: all its segments are sent to TTS in order, the
    speaker receives the concatenated audio, the temporary file is gone
    again and the microphone flag is cleared. *)
Theorem process_and_play_audio_success (t : text) (ds : list (list Byte.byte))
  (s s' : St) (r : unit + exn) :
  ~ In (next_file s) (map fst (files s)) ->
  Forall2 (fun seg d => synth seg = Some d) (segment_text_by_sentence t) ds ->
  play_ok (List.concat ds) = true ->
  process_and_play_audio synth play_ok t s = (s', r) ->
  r = inl tt /\ tts_log s' = tts_log s ++ segment_text_by_sentence t /\
  played s' = played s ++ [List.concat ds] /\ files s' = files s /\ mute s' = false.
Proof.
  intros Hfresh Hall Hplay H. unfold process_and_play_audio in H.
  unfold bind at 1 in H. rewrite new_tempfile_eq in H.
  unfold bind at 1 in H. rewrite write_segments_ok with (ds := ds) in H by exact Hall.
  unfold bind, modify in H. rewrite play_audio_eq in H.
  cbn [files set_files set_next_file set_tts_log] in H.
  rewrite write_all_fresh in H by exact Hfresh.
  cbn [app files set_files set_mute set_next_file set_tts_log tts_log] in H.
  rewrite read_file_fresh in H by exact Hfresh.
  rewrite Hplay in H. injection H as <- <-. cbn.
  rewrite remove_file_fresh by exact Hfresh. auto.
Qed.

(** When the TTS request for a segment raises, the segments before it and
    that segment have been sent, the later ones are not, nothing is played
    and the microphone flag is unchanged. *)
Theorem process_and_play_audio_synthesis_error (t : text) (pre post : list text)
  (seg : text) (ds : list (list Byte.byte)) (s s' : St) (r : unit + exn) :
  segment_text_by_sentence t = pre ++ seg :: post ->
  Forall2 (fun seg d => synth seg = Some d) pre ds -> synth seg = None ->
  process_and_play_audio synth play_ok t s = (s', r) ->
  r = inr SynthesisError /\ tts_log s' = tts_log s ++ pre ++ [seg] /\
  played s' = played s /\ mute s' = mute s.
Proof.
  intros Hseg Hall Hnone H. unfold process_and_play_audio in H.
  unfold bind at 1 in H. rewrite new_tempfile_eq in H.
  unfold bind at 1 in H. rewrite Hseg in H.
  rewrite write_segments_fail with (ds := ds) in H by assumption.
  injection H as <- <-. cbn. auto.
Qed.


End MoreProofs.

(** ** Concrete instances of the properties above *)

Lemma extract_questions_shape_witness :
  In (str "What is A?") (extract_questions (str "Hi. What is A?")) /\
  strip (str "What is A?") = str "What is A?" /\
  exists body, str "What is A?" = body ++ ["?"%char] /\
               forallb (fun c => negb (is_sentence_end c)) body = true.
Proof.
  assert (Hin : In (str "What is A?") (extract_questions (str "Hi. What is A?")))
    by (vm_compute; left; reflexivity).
  split; [exact Hin|]. exact (extract_questions_shape _ _ Hin).
Defined.

Lemma extract_questions_no_question_mark_witness :
  extract_questions (str "Hi.") = [].
Proof.
  apply extract_questions_no_question_mark.
  intros Hin. vm_compute in Hin.
  repeat (destruct Hin as [Hin | Hin]; [discriminate Hin|]). exact Hin.
Defined.

Lemma extract_questions_split_witness :
  extract_questions (str "Why? Ok" ++ "."%char :: str " How?") =
  extract_questions (str "Why? Ok") ++ extract_questions (str " How?").
Proof. apply extract_questions_split. left. reflexivity. Defined.

Lemma is_duplicate_question_mono_witness :
  is_duplicate_question (str "What is A?") [str "X?"; str "What is A?"] = true.
Proof.
  apply (is_duplicate_question_mono (str "What is A?") [str "What is A?"]).
  - intros x [<- | []]. right. left. reflexivity.
  - vm_compute. reflexivity.
Defined.

Lemma segment_text_by_sentence_single_witness :
  segment_text_by_sentence (str " Hello.world ") = [strip (str " Hello.world ")].
Proof. apply segment_text_by_sentence_single. reflexivity. Defined.

Lemma run_muted_witness :
  run gen_sample synth_sample play_all (set_mute true init_state)
    [speech_final_event "Hi"; speech_final_event "Hello"] = set_mute true init_state.
Proof. apply run_muted. reflexivity. Defined.

Lemma on_message_memory_witness :
  memory (fst (sample_turn play_all)) = memory init_state \/
  memory (fst (sample_turn play_all)) =
    memory init_state ++ [(User, strip (transcript (speech_final_event "Hi")))] \/
  exists r, memory (fst (sample_turn play_all)) =
    memory init_state ++ [(User, strip (transcript (speech_final_event "Hi")));
                          (Assistant, r)].
Proof.
  apply (on_message_memory gen_sample synth_sample play_all
           (speech_final_event "Hi") init_state _ (snd (sample_turn play_all))).
  unfold sample_turn. exact (surjective_pairing _).
Defined.

Lemma on_message_generation_error_witness :
  let s' := fst (on_message gen_down synth_sample play_all (speech_final_event "Hi")
                  init_state) in
  memory s' = memory init_state ++ [(User, strip (str "Hi"))] /\
  is_finals s' = [] /\ asked s' = asked init_state /\
  tts_log s' = tts_log init_state /\ played s' = played init_state /\
  files s' = files init_state /\ mute s' = mute init_state.
Proof.
  cbv zeta.
  apply (on_message_generation_error gen_down synth_sample play_all
           (speech_final_event "Hi") init_state).
  vm_compute. reflexivity.
Defined.

Lemma on_message_gen_calls_witness :
  gen_calls init_state <= gen_calls (fst (sample_turn play_all)) <= gen_calls init_state + 4.
Proof.
  apply (on_message_gen_calls gen_sample synth_sample play_all
           (speech_final_event "Hi") init_state _ (snd (sample_turn play_all))).
  unfold sample_turn. exact (surjective_pairing _).
Defined.

Lemma process_and_play_audio_success_witness :
  let r := process_and_play_audio synth_sample play_all (str "Hi. Bye.") init_state in
  snd r = inl tt /\
  tts_log (fst r) = tts_log init_state ++ segment_text_by_sentence (str "Hi. Bye.") /\
  played (fst r) = played init_state ++ [List.concat [[Byte.x00]; [Byte.x00]]] /\
  files (fst r) = files init_state /\ mute (fst r) = false.
Proof.
  cbv zeta.
  apply (process_and_play_audio_success synth_sample play_all (str "Hi. Bye.")
           [[Byte.x00]; [Byte.x00]] init_state).
  - intros [].
  - vm_compute. repeat constructor.
  - reflexivity.
  - exact (surjective_pairing _).
Defined.

Lemma process_and_play_audio_synthesis_error_witness :
  let r := process_and_play_audio synth_down play_all (str "Hi. Bye.") init_state in
  snd r = inr SynthesisError /\
  tts_log (fst r) = tts_log init_state ++ [] ++ [str "Hi."] /\
  played (fst r) = played init_state /\ mute (fst r) = mute init_state.
Proof.
  cbv zeta.
  apply (process_and_play_audio_synthesis_error synth_down play_all (str "Hi. Bye.")
           [] [str "Bye."] (str "Hi.") []).
  - vm_compute. reflexivity.
  - constructor.
  - reflexivity.
  - exact (surjective_pairing _).
Defined.
